(** * blizzardapi3: endpoint parameter resolution, validation errors and
      the request pipeline

    The development follows the repository layout:
    - [Py]         the few Python idioms the sources rely on (truthiness,
                   [list.index], [str.join]);
    - [Stubs]      [scripts/generate_stubs.py]: resolution of an endpoint's
                   parameters against the pattern templates of its config;
    - [Validation] [blizzardapi3/exceptions/validation.py];
    - [Executor], [Facade], [TokenManager]: the request executor, the
                   generated call surface and the token manager, after the
                   design document;
    - [Fixtures]   configurations and mocked backends in the manner of the
                   test suite;
    - [StubsFacts], [ExecutorFacts], [FacadeFacts], [TokenManagerFacts],
      [ValidationFacts], [ResolutionFacts], [GeneratorFacts],
      [MessageFacts]: the properties. *)

From Stdlib Require Import ZArith Lia.
From stdpp Require Import gmap strings list fin_maps.

Local Open Scope string_scope.

(** ** Python idioms *)

Module Py.

(** [bool(s)] for a string: the empty string is falsy. *)
Definition truthy_str (s : string) : bool :=
  if decide (s = "") then false else true.

(** [bool(d.get(k))] for a key holding a string: a missing key yields
    [None], which is falsy. *)
Definition truthy_opt_str (o : option string) : bool :=
  match o with
  | Some s => truthy_str s
  | None => false
  end.

(** [bool(d.get(k))] for a key holding a list: missing or empty is falsy. *)
Definition truthy_opt_list {A} (o : option (list A)) : bool :=
  match o with
  | Some (_ :: _) => true
  | _ => false
  end.

(** [bool(d.get(k))] for a key holding a boolean. *)
Definition truthy_opt_bool (o : option bool) : bool :=
  match o with
  | Some b => b
  | None => false
  end.

(** [bool(d)] for a dict: the empty dict is falsy. *)
Definition truthy_dict {V} (d : gmap string V) : bool :=
  if decide (d = ∅) then false else true.

(** [x in l] on a list of strings. *)
Definition contains (x : string) (l : list string) : bool :=
  bool_decide (x ∈ l).

(** [l.index(x)]: position of the first element equal to [x]; Python
    raises [ValueError] when there is none, here [None]. *)
Fixpoint index (x : string) (l : list string) : option nat :=
  match l with
  | [] => None
  | y :: l' => if decide (y = x) then Some 0 else S <$> index x l'
  end.

(** [sep.join(parts)]. *)
Fixpoint join (sep : string) (parts : list string) : string :=
  match parts with
  | [] => ""
  | [p] => p
  | p :: ps => p ++ sep ++ join sep ps
  end.

(** [s.startswith(p)]. *)
Fixpoint startswith (p s : string) : bool :=
  match p, s with
  | EmptyString, _ => true
  | String a p', String b s' =>
      if decide (a = b) then startswith p' s' else false
  | String _ _, EmptyString => false
  end.

(** [sub in s] on strings: [sub] occurs somewhere in [s]. *)
Fixpoint str_contains (sub s : string) : bool :=
  startswith sub s ||
  match s with
  | EmptyString => false
  | String _ s' => str_contains sub s'
  end.

(** [s.endswith(sfx)]. *)
Fixpoint endswith (sfx s : string) : bool :=
  (if decide (sfx = s) then true else false) ||
  match s with
  | EmptyString => false
  | String _ s' => endswith sfx s'
  end.

(** The characters that a Python triple-quoted literal holds and a
    literal here cannot: the line feed and the double quote. *)
Definition newline : string := String (Ascii.ascii_of_nat 10) EmptyString.
Definition dquote : string := String (Ascii.ascii_of_nat 34) EmptyString.
Definition triple_quote : string := dquote ++ dquote ++ dquote.

(** [s[-1]], when [s] is not empty. *)
Fixpoint last_char (s : string) : option Ascii.ascii :=
  match s with
  | EmptyString => None
  | String a EmptyString => Some a
  | String _ s' => last_char s'
  end.

End Py.

(** ** scripts/generate_stubs.py *)

Module Stubs.
Import Py.

(** An entry of [pattern_templates]: the keys the script reads with
    [pattern.get]; a key that the YAML document leaves out is [None]. *)
Record PatternTemplate := {
  path_template : option string;
  pt_params : option (list string);
  pt_accepts_kwargs : option bool
}.

(** An entry of [endpoints].  [path] is the explicit path a descriptor
    without pattern may carry; the script never reads it. *)
Record EndpointDescriptor := {
  method_name : string;
  description : option string;
  pattern : option string;
  path : option string;
  params : option (list string);
  param_name : option string;
  accepts_kwargs : option bool
}.

(** The document returned by [load_yaml_config]. *)
Record Config := {
  api_type : string;
  pattern_templates : gmap string PatternTemplate;
  endpoints : list EndpointDescriptor
}.

(** [{}]: what [patterns.get(name, {})] yields for an unknown name. *)
Definition empty_pattern : PatternTemplate :=
  {| path_template := None; pt_params := None; pt_accepts_kwargs := None |}.

Definition default_params : list string := ["region"; "locale"].

(** [patterns.get(endpoint["pattern"], {})], reached only when
    [endpoint.get("pattern")] is truthy. *)
Definition lookup_pattern (endpoint : EndpointDescriptor)
    (patterns : gmap string PatternTemplate) : PatternTemplate :=
  match pattern endpoint with
  | Some name => default empty_pattern (patterns !! name)
  | None => empty_pattern
  end.

(** Lines 84-90: the base parameter sequence. *)
Definition base_params (endpoint : EndpointDescriptor)
    (patterns : gmap string PatternTemplate) : list string :=
  if truthy_opt_list (params endpoint) then
    default [] (params endpoint)
  else if truthy_opt_str (pattern endpoint) && truthy_dict patterns then
    default default_params (pt_params (lookup_pattern endpoint patterns))
  else
    default_params.

(** Lines 92-95: the [param_name] substitution. *)
Definition substitute_id (endpoint : EndpointDescriptor)
    (ps : list string) : list string :=
  if truthy_opt_str (param_name endpoint) && contains "id" ps then
    match index "id" ps with
    | Some idx => <[idx := default "" (param_name endpoint)]> ps
    | None => ps
    end
  else ps.

(** Lines 97-101: the kwargs flag. *)
Definition resolve_accepts_kwargs (endpoint : EndpointDescriptor)
    (patterns : gmap string PatternTemplate) : bool :=
  let accepts := default false (accepts_kwargs endpoint) in
  if negb accepts && truthy_opt_str (pattern endpoint) && truthy_dict patterns
  then default false (pt_accepts_kwargs (lookup_pattern endpoint patterns))
  else accepts.

Definition get_endpoint_params (endpoint : EndpointDescriptor)
    (patterns : gmap string PatternTemplate) : list string * bool :=
  (substitute_id endpoint (base_params endpoint patterns),
   resolve_accepts_kwargs endpoint patterns).

(** [has_kwargs_endpoints]: does any endpoint accept [**kwargs]? *)
Fixpoint has_kwargs_endpoints (eps : list EndpointDescriptor)
    (patterns : gmap string PatternTemplate) : bool :=
  match eps with
  | [] => false
  | endpoint :: rest =>
      if truthy_opt_bool (accepts_kwargs endpoint) then true
      else if truthy_opt_str (pattern endpoint) && truthy_dict patterns
              && truthy_opt_bool
                   (pt_accepts_kwargs (lookup_pattern endpoint patterns))
      then true
      else has_kwargs_endpoints rest patterns
  end.

(** [get_param_type]. *)
Definition get_param_type (param : string) : string :=
  if decide (param = "region") then "str | Region"
  else if decide (param = "locale") then "str | Locale"
  else if decide (param = "access_token") then "str | None"
  else if str_contains "_id" param || endswith "_id" param then "int"
  else "str".

(** [generate_method_stub], lines 42-47: one entry of the parameter list. *)
Definition render_param (param : string) : string :=
  if decide (param = "access_token")
  then param ++ ": " ++ get_param_type param ++ " = None"
  else param ++ ": " ++ get_param_type param.

(** [generate_method_stub], lines 39-55: the parameter list. *)
Definition param_strs (ps : list string)
    (accepts include_is_classic : bool) : list string :=
  let strs := app ["self"; "*"] (map render_param ps) in
  let strs :=
    if include_is_classic then app strs ["is_classic: bool = False"]
    else strs in
  if accepts then app strs ["**kwargs: Any"] else strs.

(** [generate_method_stub], lines 60-65: the name of the stub. *)
Definition stub_name (name : string) (is_async : bool) : string :=
  if is_async then name ++ "_async" else name.

Definition generate_method_stub (name : string) (ps : list string)
    (descr : string) (is_async accepts include_is_classic : bool) : string :=
  let params_str :=
    join ("," ++ newline ++ "        ")
         (param_strs ps accepts include_is_classic) in
  let prefix := if is_async then "async def" else "def" in
  "    " ++ prefix ++ " " ++ stub_name name is_async ++ "(" ++ newline
  ++ "        " ++ params_str ++ "," ++ newline
  ++ "    ) -> ApiResponse:" ++ newline
  ++ "        " ++ triple_quote ++ descr ++ "." ++ triple_quote ++ newline
  ++ "        ..." ++ newline.

(** [generate_api_class_stub], lines 115-132: the two stubs of one
    endpoint, the blocking one first. *)
Definition endpoint_stubs (endpoint : EndpointDescriptor)
    (patterns : gmap string PatternTemplate) (include_is_classic : bool)
    : list string :=
  let name := method_name endpoint in
  let descr := default ("Call " ++ name) (description endpoint) in
  let '(ps, accepts) := get_endpoint_params endpoint patterns in
  [generate_method_stub name ps descr false accepts include_is_classic;
   generate_method_stub name ps descr true accepts include_is_classic].

(** [generate_api_class_stub], lines 113-132: the list [methods]. *)
Fixpoint class_methods (eps : list EndpointDescriptor)
    (patterns : gmap string PatternTemplate) (include_is_classic : bool)
    : list string :=
  match eps with
  | [] => []
  | endpoint :: rest =>
      app (endpoint_stubs endpoint patterns include_is_classic)
          (class_methods rest patterns include_is_classic)
  end.

Definition generate_api_class_stub (class_name : string)
    (eps : list EndpointDescriptor) (patterns : gmap string PatternTemplate)
    (include_is_classic : bool) : string :=
  "class " ++ class_name ++ ":" ++ newline
  ++ "    " ++ triple_quote ++ "Auto-generated stub for IDE autocomplete."
  ++ triple_quote ++ newline ++ newline
  ++ join newline (class_methods eps patterns include_is_classic) ++ newline.

(** [generate_stub_header]: the list [lines]. *)
Definition header_lines (docstring : string) (needs_any : bool)
    : list string :=
  let lines := [triple_quote ++ docstring ++ triple_quote; ""] in
  let lines :=
    if needs_any then app lines ["from typing import Any"; ""] else lines in
  app lines ["from ..core.executor import ApiResponse";
             "from ..types import Locale, Region"; ""].

Definition generate_stub_header (docstring : string) (needs_any : bool)
    : string :=
  join newline (header_lines docstring needs_any).

(** The loop that opens [generate_wow_stubs], [generate_d3_stubs] and
    [generate_sc2_stubs] (lines 183-193): the config files in order, [None]
    for a file that does not exist; the loop stops at the first config with
    a kwargs endpoint. *)
Fixpoint needs_any (configs : list (option Config)) : bool :=
  match configs with
  | [] => false
  | None :: rest => needs_any rest
  | Some config :: rest =>
      if has_kwargs_endpoints (endpoints config) (pattern_templates config)
      then true
      else needs_any rest
  end.

(** The names of the stubs that [generate_api_class_stub] emits, in
    order: [generate_method_stub] is called twice per endpoint, with
    [is_async] false and then true. *)
Definition stub_names (eps : list EndpointDescriptor) : list string :=
  flat_map (λ e, [stub_name (method_name e) false;
                  stub_name (method_name e) true]) eps.

End Stubs.

(** ** blizzardapi3/exceptions/validation.py *)

Module Validation.
Import Py.

(** [ValidationError]: [message] comes from the base class
    [BlizzardAPIError]; [invalid_value] is kept as its [str()]. *)
Record ValidationError := {
  message : string;
  field : option string;
  invalid_value : option string
}.

(** [MissingParameterError(ValidationError)]. *)
Record MissingParameterError := {
  mp_base : ValidationError;
  required_params : option (list string)
}.

(** [InvalidRegionError(ValidationError)]. *)
Record InvalidRegionError := {
  ir_base : ValidationError;
  valid_regions : option (list string)
}.

(** [InvalidLocaleError(ValidationError)]. *)
Record InvalidLocaleError := {
  il_base : ValidationError;
  valid_locales : option (list string)
}.

(** [ValidationError.__str__]. *)
Definition validation_str (e : ValidationError) : string :=
  let parts := ["ValidationError: " ++ message e] in
  let parts :=
    if truthy_opt_str (field e)
    then app parts ["Field: " ++ default "" (field e)] else parts in
  let parts :=
    match invalid_value e with
    | Some v => app parts ["Invalid value: " ++ v]
    | None => parts
    end in
  join " | " parts.

(** The suffix the three subclasses append when their list is truthy. *)
Definition with_list (label : string) (l : option (list string))
    (msg : string) : string :=
  if truthy_opt_list l
  then msg ++ " | " ++ label ++ ": " ++ join ", " (default [] l)
  else msg.

(** [MissingParameterError.__str__]. *)
Definition missing_parameter_str (e : MissingParameterError) : string :=
  with_list "Required" (required_params e) (validation_str (mp_base e)).

(** [InvalidRegionError.__str__]. *)
Definition invalid_region_str (e : InvalidRegionError) : string :=
  with_list "Valid regions" (valid_regions e) (validation_str (ir_base e)).

(** [InvalidLocaleError.__str__]. *)
Definition invalid_locale_str (e : InvalidLocaleError) : string :=
  with_list "Valid locales" (valid_locales e) (validation_str (il_base e)).

End Validation.

(** ** The request executor

    [blizzardapi3/core/executor.py] and [blizzardapi3/exceptions/request.py]
    are not among the sources at hand; the definitions of this module follow
    section 4.4 and the taxonomy of section 7 of the design document. *)

Module Executor.

(** Modelled from the spec: the error taxonomy of section 7. *)
Inductive ApiError :=
| MissingParameter (e : Validation.MissingParameterError)
| InvalidRegion (e : Validation.InvalidRegionError)
| InvalidLocale (e : Validation.InvalidLocaleError)
| TokenError
| BadRequestError
| ForbiddenError
| NotFoundError
| RateLimitError (retry_after : option Z)
| ServerError.

(** Modelled from the spec: the result of [execute] and of a generated
    operation, which are not among the sources: a decoded payload, or one
    of the errors of the taxonomy. *)
Inductive outcome (A : Type) :=
| Returned (a : A)
| Raised (e : ApiError).
Arguments Returned {A} a.
Arguments Raised {A} e.

(** Modelled from the spec: [Token] of section 3. *)
Record Token := {
  access_token : string;
  expires_at : Z;
  scope : option string
}.

(** Modelled from the spec: [RequestContext] of section 3, together with
    the expanded path. *)
Record RequestContext := {
  region : string;
  locale : string;
  url_path : string;
  path_params : gmap string string;
  query_params : gmap string string;
  requires_auth : bool;
  is_classic : bool
}.

(** Modelled from the spec: what the transport of the executor, which is
    not among the sources, hands back for a GET: a response with its
    status, its retry-after header when there is one and its decoded body,
    or a network-level failure (timeout, connection reset). *)
Record HttpResponse := {
  status : Z;
  retry_after_header : option Z;
  body : string
}.

Inductive HttpOutcome :=
| Responded (r : HttpResponse)
| NetworkFailure.

(** Modelled from the spec: what the token supplier of [execute] hands
    back, a token or an authentication failure. *)
Inductive TokenOutcome :=
| Granted (t : Token)
| Denied.

(** Modelled from the spec: the external collaborators of the executor,
    over a backend state [B]: the HTTP transport and the token supplier;
    [force] bypasses the cache. *)
Class Transport (B : Type) := {
  http_get : RequestContext → option Token → B → HttpOutcome * B;
  token_supplier : bool → B → TokenOutcome * B
}.

(** Modelled from the spec: the bounded-retry policy of section 4.4,
    base delay doubling per attempt, capped. *)
Record RetryPolicy := {
  max_retries : nat;
  base_delay : Z;
  max_delay : Z
}.

Definition backoff (p : RetryPolicy) (attempt : nat) : Z :=
  Z.min (base_delay p * 2 ^ Z.of_nat attempt) (max_delay p).

(** Modelled from the spec: what a run of [execute] does to the outside
    world, in order: token requests, GETs and backoff sleeps. *)
Inductive Event :=
| EToken (force : bool) (o : TokenOutcome)
| EGet (o : HttpOutcome)
| ESleep (delay : Z).

(** Modelled from the spec: classification of an outcome by status code. *)
Inductive Class :=
| CSuccess (payload : string)
| CUnauthorized
| CRateLimited (retry_after : option Z)
| CTransient
| CFatal (e : ApiError).

Definition classify (o : HttpOutcome) : Class :=
  match o with
  | NetworkFailure => CTransient
  | Responded r =>
      let s := status r in
      if bool_decide (200 ≤ s < 300)%Z then CSuccess (body r)
      else if bool_decide (s = 401)%Z then CUnauthorized
      else if bool_decide (s = 429)%Z then CRateLimited (retry_after_header r)
      else if bool_decide (s = 404)%Z then CFatal NotFoundError
      else if bool_decide (s = 403)%Z then CFatal ForbiddenError
      else if bool_decide (500 ≤ s < 600)%Z then CTransient
      else CFatal BadRequestError
  end.

(** *** The blocking variant *)

Section Blocking.
Context {B : Type} `{!Transport B}.
Variable policy : RetryPolicy.
Variable req : RequestContext.

(** Modelled from the spec: the retry loop of [execute], which is not
    among the sources.  One GET and what follows it: a 2xx body is
    returned; a 401 is handed to [on_401]; a 429 and the other 4xx are
    surfaced at once; a 5xx or a network failure is retried after a
    backoff sleep while [left] retries remain. *)
Fixpoint attempt (on_401 : nat → B → outcome string * list Event * B)
    (tok : option Token) (left : nat) (b : B)
    : outcome string * list Event * B :=
  let '(o, b1) := http_get req tok b in
  match classify o with
  | CSuccess payload => (Returned payload, [EGet o], b1)
  | CUnauthorized =>
      let '(r, ev, b2) := on_401 left b1 in (r, EGet o :: ev, b2)
  | CRateLimited ra => (Raised (RateLimitError ra), [EGet o], b1)
  | CTransient =>
      match left with
      | O => (Raised ServerError, [EGet o], b1)
      | S left' =>
          let '(r, ev, b2) := attempt on_401 tok left' b1 in
          (r, EGet o :: ESleep (backoff policy (max_retries policy - left))
                :: ev, b2)
      end
  | CFatal e => (Raised e, [EGet o], b1)
  end.

(** Modelled from the spec: a 401 that persists after the refresh is
    surfaced as [TokenError]. *)
Definition persisting_401 (left : nat) (b : B)
    : outcome string * list Event * B :=
  (Raised TokenError, [], b).

(** Modelled from the spec: the first 401 forces one token refresh,
    bypassing the cache, and retries the call. *)
Definition refresh_and_retry (left : nat) (b : B)
    : outcome string * list Event * B :=
  let '(t, b1) := token_supplier true b in
  match t with
  | Granted tok' =>
      let '(r, ev, b2) := attempt persisting_401 (Some tok') left b1 in
      (r, EToken true t :: ev, b2)
  | Denied => (Raised TokenError, [EToken true t], b1)
  end.

(** Modelled from the spec: [execute(request_description,
    token_supplier)] of section 4.4, blocking variant. *)
Definition execute (b : B) : outcome string * list Event * B :=
  if requires_auth req then
    let '(t, b1) := token_supplier false b in
    match t with
    | Granted tok =>
        let '(r, ev, b2) :=
          attempt refresh_and_retry (Some tok) (max_retries policy) b1 in
        (r, EToken false t :: ev, b2)
    | Denied => (Raised TokenError, [EToken false t], b1)
    end
  else attempt refresh_and_retry None (max_retries policy) b.

End Blocking.

(** *** The non-blocking variant

    A coroutine suspends exactly at network I/O (token acquisition, the
    HTTP round trip) and at a backoff delay; the event loop resumes it
    with the answer. *)

(** Modelled from the spec: a non-blocking call, which is not among the
    sources, as a coroutine with its suspension points. *)
Inductive Prog :=
| Done (r : outcome string)
| AwaitToken (force : bool) (k : TokenOutcome → Prog)
| AwaitGet (req : RequestContext) (tok : option Token) (k : HttpOutcome → Prog)
| AwaitSleep (delay : Z) (k : Prog).

Section NonBlocking.
Variable policy : RetryPolicy.
Variable req : RequestContext.

(** Modelled from the spec: the retry loop of the non-blocking
    [execute], which is not among the sources. *)
Fixpoint attempt_async (on_401 : nat → Prog) (tok : option Token)
    (left : nat) : Prog :=
  AwaitGet req tok (λ o,
    match classify o with
    | CSuccess payload => Done (Returned payload)
    | CUnauthorized => on_401 left
    | CRateLimited ra => Done (Raised (RateLimitError ra))
    | CTransient =>
        match left with
        | O => Done (Raised ServerError)
        | S left' =>
            AwaitSleep (backoff policy (max_retries policy - left))
                       (attempt_async on_401 tok left')
        end
    | CFatal e => Done (Raised e)
    end).

(** Modelled from the spec: the handlers of a 401 of the non-blocking
    [execute]. *)
Definition persisting_401_async (left : nat) : Prog :=
  Done (Raised TokenError).

Definition refresh_and_retry_async (left : nat) : Prog :=
  AwaitToken true (λ t,
    match t with
    | Granted tok' => attempt_async persisting_401_async (Some tok') left
    | Denied => Done (Raised TokenError)
    end).

(** Modelled from the spec: [execute] of section 4.4, non-blocking
    variant. *)
Definition execute_async : Prog :=
  if requires_auth req then
    AwaitToken false (λ t,
      match t with
      | Granted tok =>
          attempt_async refresh_and_retry_async (Some tok)
                        (max_retries policy)
      | Denied => Done (Raised TokenError)
      end)
  else attempt_async refresh_and_retry_async None (max_retries policy).

End NonBlocking.

(** Modelled from the spec: the event loop, which drives one coroutine
    to completion against the backend, resuming it at each suspension
    point with the answer of the network. *)
Fixpoint run_prog {B : Type} `{!Transport B} (p : Prog) (b : B)
    : outcome string * list Event * B :=
  match p with
  | Done r => (r, [], b)
  | AwaitToken force k =>
      let '(t, b1) := token_supplier force b in
      let '(r, ev, b2) := run_prog (k t) b1 in
      (r, EToken force t :: ev, b2)
  | AwaitGet req tok k =>
      let '(o, b1) := http_get req tok b in
      let '(r, ev, b2) := run_prog (k o) b1 in
      (r, EGet o :: ev, b2)
  | AwaitSleep delay k =>
      let '(r, ev, b2) := run_prog k b in
      (r, ESleep delay :: ev, b2)
  end.

(** *** Observations on the events of a run *)


Definition is_429 (o : HttpOutcome) : bool :=
  match o with
  | Responded r => bool_decide (status r = 429)%Z
  | NetworkFailure => false
  end.


Definition is_get (e : Event) : bool :=
  match e with
  | EGet _ => true
  | _ => false
  end.


(** The first GET whose answer satisfies [p], with the events that
    follow it. *)
Fixpoint first_answer (p : HttpOutcome → bool) (ev : list Event)
    : option (HttpOutcome * list Event) :=
  match ev with
  | [] => None
  | EGet o :: rest => if p o then Some (o, rest) else first_answer p rest
  | _ :: rest => first_answer p rest
  end.


(** What a run does about a 429: the first GET answered 429 is the last
    event of the run, and the run raises [RateLimitError] with the
    retry-after header of that answer. *)
Definition rate_limit_surfaced (r : outcome string) (ev : list Event)
    : Prop :=
  ∀ o post, first_answer is_429 ev = Some (o, post) →
    post = [] ∧
    ∃ resp, o = Responded resp ∧ status resp = 429%Z ∧
      r = Raised (RateLimitError (retry_after_header resp)).

End Executor.

(** ** The generated call surface

    The facade builder ([blizzardapi3/api]) is not among the sources; the
    definitions follow section 4.2 of the design document.  The error
    values are those of [Validation]. *)

Module Facade.
Import Executor.

(** Modelled from the spec: [ResolvedPattern] of section 3. *)
Record ResolvedPattern := {
  rp_path_template : string;
  required_params : list string;
  accepts_extra_kwargs : bool
}.

(** Modelled from the spec: what the builder fixes for one generated
    operation, and the defaults of the client it is bound to. *)
Record Operation := {
  op_name : string;
  op_pattern : ResolvedPattern;
  op_requires_auth : bool;
  default_region : string;
  default_locale : string;
  op_policy : RetryPolicy
}.

(** The region codes of [tests/unit/test_types.py]. *)
Definition valid_regions : list string := ["us"; "eu"; "kr"; "tw"; "cn"].

(** Modelled from the spec: the validation of the facade counts a
    keyword argument as given when it is present and non-empty. *)
Definition given (kwargs : gmap string string) (name : string) : bool :=
  match kwargs !! name with
  | Some v => Py.truthy_str v
  | None => false
  end.

(** Modelled from the spec: the required names, other than [region] and
    [locale], that the call does not give. *)
Definition missing_params (rp : ResolvedPattern)
    (kwargs : gmap string string) : list string :=
  filter (λ n, n ≠ "region" ∧ n ≠ "locale" ∧ given kwargs n = false)
         (required_params rp).

(** Modelled from the spec: the error the facade raises, carrying the
    full list of required parameter names. *)
Definition missing_parameter_error (rp : ResolvedPattern)
    (missing : list string) : Validation.MissingParameterError :=
  {| Validation.mp_base :=
       {| Validation.message :=
            "Missing required parameter(s): " ++ Py.join ", " missing;
          Validation.field := head missing;
          Validation.invalid_value := None |};
     Validation.required_params := Some (required_params rp) |}.

Section Operations.
(** The locales valid for a region ([blizzardapi3/types], not among the
    sources) and the expansion of a path template with escaped values. *)
Variable valid_locales : string → list string.
Variable expand_path : string → gmap string string → string.

(** Modelled from the spec: validation and request construction of a
    generated operation (section 4.2), a computation without side
    effects shared by both variants. *)
Definition prepare (op : Operation) (kwargs : gmap string string)
    : ApiError + RequestContext :=
  let rp := op_pattern op in
  match missing_params rp kwargs with
  | _ :: _ as missing =>
      inl (MissingParameter (missing_parameter_error rp missing))
  | [] =>
      let reg := default (default_region op) (kwargs !! "region") in
      if bool_decide (reg ∈ valid_regions) then
        let loc := default (default_locale op) (kwargs !! "locale") in
        if bool_decide (is_Some (kwargs !! "locale")
                        ∧ loc ∉ valid_locales reg)
        then
          inl (InvalidLocale
                 {| Validation.il_base :=
                      {| Validation.message := "Invalid locale";
                         Validation.field := Some "locale";
                         Validation.invalid_value := Some loc |};
                    Validation.valid_locales := Some (valid_locales reg) |})
        else
          let path_args :=
            filter (λ kv, kv.1 ∈ required_params rp) kwargs in
          let extra :=
            if accepts_extra_kwargs rp
            then filter (λ kv, (kv.1 ∉ required_params rp)
                               ∧ (kv.1 ∉ ["region"; "locale";
                                          "access_token"; "is_classic"]))
                        kwargs
            else ∅ in
          inr {| region := reg;
                 locale := loc;
                 url_path := expand_path (rp_path_template rp) path_args;
                 path_params := path_args;
                 query_params := <["locale" := loc]> extra;
                 requires_auth := op_requires_auth op;
                 is_classic :=
                   bool_decide (kwargs !! "is_classic" = Some "True") |}
      else
        inl (InvalidRegion
               {| Validation.ir_base :=
                    {| Validation.message := "Invalid region";
                       Validation.field := Some "region";
                       Validation.invalid_value := Some reg |};
                  Validation.valid_regions := Some valid_regions |})
  end.

(** Modelled from the spec: the blocking operation [<method_name>]. *)
Definition call {B : Type} `{!Transport B} (op : Operation)
    (kwargs : gmap string string) (b : B)
    : outcome string * list Event * B :=
  match prepare op kwargs with
  | inl e => (Raised e, [], b)
  | inr req => execute (op_policy op) req b
  end.

(** Modelled from the spec: the non-blocking operation
    [<method_name>_async]. *)
Definition call_async (op : Operation) (kwargs : gmap string string)
    : Prog :=
  match prepare op kwargs with
  | inl e => Done (Raised e)
  | inr req => execute_async (op_policy op) req
  end.

End Operations.

(** The number of network requests (token or GET) a run has issued. *)
Definition is_network (e : Event) : bool :=
  match e with
  | ESleep _ => false
  | _ => true
  end.

Definition network_calls (ev : list Event) : nat :=
  length (filter (λ e, is_network e = true) ev).

End Facade.

(** ** The token manager

    [blizzardapi3/core/auth.py] is not among the sources; the definitions
    follow section 4.3 and section 5 of the design document.  Callers run
    concurrently: a schedule is any interleaving of their requests, of the
    completions of the refreshes in flight and of the passing of time. *)

Module TokenManager.
Import Executor.

(** Modelled from the spec: the token manager's shared state.  A key is a
    pair (credential identity, region).  [inflight] maps a key to the
    callers awaiting the refresh in flight for it, [received] records
    what each caller got back, and [round_trips] counts the token
    requests sent to the authorization server, per key. *)
Record State := {
  now : Z;
  cache : gmap (string * string) Token;
  inflight : gmap (string * string) (list nat);
  received : gmap nat TokenOutcome;
  round_trips : gmap (string * string) nat
}.

(** Modelled from the spec: what can happen to the token manager: a
    caller asks for a token, the refresh in flight for a key completes
    with the answer of the authorization server, time passes. *)
Inductive Action :=
| Request (caller : nat) (k : string * string)
| Complete (k : string * string) (o : TokenOutcome)
| Tick (d : N).

Definition trips (s : State) (k : string * string) : nat :=
  default 0 (round_trips s !! k).

(** Modelled from the spec: the completion of a refresh hands its
    outcome to every caller awaiting it. *)
Definition deliver (o : TokenOutcome) (waiters : list nat)
    (m : gmap nat TokenOutcome) : gmap nat TokenOutcome :=
  foldr (λ c acc, <[c := o]> acc) m waiters.

Section Manager.
Variable safety_margin : Z.

(** Modelled from the spec: the cached token for [k], if it is still
    usable: [now < expires_at - safety_margin]. *)
Definition usable (s : State) (k : string * string) : option Token :=
  match cache s !! k with
  | Some t =>
      if bool_decide (now s < expires_at t - safety_margin)%Z
      then Some t else None
  | None => None
  end.

(** Modelled from the spec: [get_token] and the completion of a refresh.
    A request is served from the cache when the token is usable;
    otherwise it joins the refresh in flight for its key, or starts one
    (one network round trip) when there is none. *)
Definition step (a : Action) (s : State) : State :=
  match a with
  | Request c k =>
      match usable s k with
      | Some t =>
          {| now := now s; cache := cache s; inflight := inflight s;
             received := <[c := Granted t]> (received s);
             round_trips := round_trips s |}
      | None =>
          match inflight s !! k with
          | Some waiters =>
              {| now := now s; cache := cache s;
                 inflight := <[k := c :: waiters]> (inflight s);
                 received := received s;
                 round_trips := round_trips s |}
          | None =>
              {| now := now s; cache := cache s;
                 inflight := <[k := [c]]> (inflight s);
                 received := received s;
                 round_trips := <[k := S (trips s k)]> (round_trips s) |}
          end
      end
  | Complete k o =>
      match inflight s !! k with
      | Some waiters =>
          {| now := now s;
             cache := match o with
                      | Granted t => <[k := t]> (cache s)
                      | Denied => cache s
                      end;
             inflight := delete k (inflight s);
             received := deliver o waiters (received s);
             round_trips := round_trips s |}
      | None => s
      end
  | Tick d =>
      {| now := (now s + Z.of_N d)%Z; cache := cache s;
         inflight := inflight s; received := received s;
         round_trips := round_trips s |}
  end.

(** Modelled from the spec: concurrent use of the token manager, as a
    schedule run from left to right. *)
Definition run (sched : list Action) (s : State) : State :=
  foldl (λ acc a, step a acc) s sched.

End Manager.

(** The callers that request a token for [k] in a schedule. *)
Definition callers_of (k : string * string) (sched : list Action)
    : list nat :=
  omap (λ a, match a with
             | Request c k' => if decide (k' = k) then Some c else None
             | _ => None
             end) sched.

(** Does the action complete a refresh for [k]? *)
Definition completes (k : string * string) (a : Action) : bool :=
  match a with
  | Complete k' _ => bool_decide (k' = k)
  | _ => false
  end.

(** The state reached from [s0] by requests of [callers] for [k], as long
    as no refresh for [k] has completed: the cached token for [k] is the
    one of [s0] and time has not gone back; before the first request for
    [k] nothing is in flight for it; from the first request on, one
    refresh is in flight, every caller so far awaits it, and exactly one
    round trip was added. *)
Definition awaiting (k : string * string) (s0 s : State)
    (callers : list nat) : Prop :=
  (now s0 ≤ now s)%Z ∧ cache s !! k = cache s0 !! k ∧
  ((callers = [] ∧ inflight s !! k = None ∧ trips s k = trips s0 k) ∨
   (callers ≠ [] ∧ trips s k = S (trips s0 k) ∧
    ∃ ws, inflight s !! k = Some ws ∧ ∀ c, c ∈ callers → c ∈ ws)).

End TokenManager.

(** ** Fixtures

    Concrete configurations in the shape of the shipped YAML documents and
    a scripted backend in the manner of the mocks of
    [tests/integration/test_api.py]. *)

Module Fixtures.
Import Stubs Executor.

Definition get_by_id : PatternTemplate :=
  {| path_template := Some "/data/wow/{resource}/{id}";
     pt_params := Some ["region"; "locale"; "id"];
     pt_accepts_kwargs := None |}.

Definition search : PatternTemplate :=
  {| path_template := Some "/data/wow/search/{resource}";
     pt_params := Some ["region"; "locale"];
     pt_accepts_kwargs := Some true |}.

Definition wow_patterns : gmap string PatternTemplate :=
  <["get_by_id" := get_by_id]> (<["search" := search]> ∅).

Definition get_achievement : EndpointDescriptor :=
  {| method_name := "get_achievement";
     description := Some "Get an achievement by ID";
     pattern := Some "get_by_id"; path := None; params := None;
     param_name := Some "achievement_id"; accepts_kwargs := None |}.

(** A search endpoint that switches the extra keywords off explicitly. *)
Definition search_decor_strict : EndpointDescriptor :=
  {| method_name := "search_decor";
     description := Some "Search decor";
     pattern := Some "search"; path := None; params := None;
     param_name := None; accepts_kwargs := Some false |}.

(** A search endpoint that sets a [param_name] although the parameters
    of its template have no ["id"] entry. *)
Definition search_decor_named : EndpointDescriptor :=
  {| method_name := "search_decor";
     description := Some "Search decor";
     pattern := Some "search"; path := None; params := None;
     param_name := Some "decor_id"; accepts_kwargs := None |}.

(** A descriptor with neither pattern reference nor explicit path. *)
Definition bare_endpoint : EndpointDescriptor :=
  {| method_name := "get_token_index";
     description := None;
     pattern := None; path := None; params := None;
     param_name := None; accepts_kwargs := None |}.

(** The scripted backend: the answers the mocked transport will give, in
    order; an exhausted script answers with a network failure, resp. a
    denied token. *)
Record Script := {
  get_answers : list HttpOutcome;
  token_answers : list TokenOutcome
}.

#[global] Instance script_transport : Transport Script := {|
  http_get _ _ b :=
    match get_answers b with
    | o :: rest =>
        (o, {| get_answers := rest; token_answers := token_answers b |})
    | [] => (NetworkFailure, b)
    end;
  token_supplier _ b :=
    match token_answers b with
    | t :: rest =>
        (t, {| get_answers := get_answers b; token_answers := rest |})
    | [] => (Denied, b)
    end
|}.

Definition response (code : Z) (retry : option Z) (payload : string)
    : HttpOutcome :=
  Responded {| status := code; retry_after_header := retry;
               body := payload |}.

Definition test_token : Token :=
  {| access_token := "test_token_12345"; expires_at := 86400;
     scope := None |}.

Definition fresh_token : Token :=
  {| access_token := "test_token_67890"; expires_at := 172800;
     scope := None |}.

Definition test_policy : RetryPolicy :=
  {| max_retries := 3; base_delay := 1; max_delay := 8 |}.

Definition achievement_request : RequestContext :=
  {| region := "us"; locale := "en_US";
     url_path := "/data/wow/achievement/6";
     path_params := <["achievement_id" := "6"]> ∅;
     query_params := <["locale" := "en_US"]> ∅;
     requires_auth := true; is_classic := false |}.

(** The operation [get_achievement] as the builder would produce it for
    the resolved pattern of [get_achievement]. *)
Definition achievement_op : Facade.Operation :=
  {| Facade.op_name := "get_achievement";
     Facade.op_pattern :=
       {| Facade.rp_path_template := "/data/wow/achievement/{achievement_id}";
          Facade.required_params := ["region"; "locale"; "achievement_id"];
          Facade.accepts_extra_kwargs := false |};
     Facade.op_requires_auth := true;
     Facade.default_region := "us";
     Facade.default_locale := "en_US";
     Facade.op_policy := test_policy |}.

Definition locales_of (reg : string) : list string :=
  if decide (reg = "us") then ["en_US"; "es_MX"; "pt_BR"]
  else if decide (reg = "eu") then ["en_GB"; "de_DE"; "fr_FR"]
  else if decide (reg = "kr") then ["ko_KR"]
  else [].

(** Path expansion is immaterial to the fixtures: the mocked transport
    ignores the request. *)
Definition keep_template (template : string) (_ : gmap string string)
    : string := template.

(** [get_achievement(region="us", locale="en_US")]: no [achievement_id]. *)
Definition call_without_id : gmap string string :=
  <["region" := "us"]> (<["locale" := "en_US"]> ∅).

Definition achievement_backend : Script :=
  {| get_answers := [response 200 None "{id: 6, name: Level 10}"];
     token_answers := [Granted test_token] |}.

(** Two consecutive 401 answers, then a 200 that must never be fetched. *)
Definition unauthorized_backend : Script :=
  {| get_answers := [response 401 None ""; response 401 None "";
                     response 200 None "{id: 6}"];
     token_answers := [Granted test_token; Granted fresh_token] |}.

(** A 429 with a retry-after header, then a 200 that must never be
    fetched. *)
Definition rate_limited_backend : Script :=
  {| get_answers := [response 429 (Some 60%Z) ""; response 200 None "{id: 6}"];
     token_answers := [Granted test_token] |}.

(** A token manager whose cached token for [("client", "us")] has
    expired: [expires_at = 100], the clock reads 95, the margin is 30. *)
Definition client_us : string * string := ("client", "us").
Definition client_eu : string * string := ("client", "eu").

Definition stale_token : Token :=
  {| access_token := "stale"; expires_at := 100; scope := None |}.

Definition expired_state : TokenManager.State :=
  {| TokenManager.now := 95;
     TokenManager.cache := <[client_us := stale_token]> ∅;
     TokenManager.inflight := ∅;
     TokenManager.received := ∅;
     TokenManager.round_trips := <[client_us := 1]> ∅ |}.

(** Three callers ask for the same key while a fourth asks for another
    region and time passes. *)
Definition three_callers : list TokenManager.Action :=
  [TokenManager.Request 1 client_us;
   TokenManager.Request 7 client_eu;
   TokenManager.Tick 2;
   TokenManager.Request 2 client_us;
   TokenManager.Complete client_eu Denied;
   TokenManager.Request 3 client_us].

(** A token manager with a usable cached token. *)
Definition valid_state : TokenManager.State :=
  {| TokenManager.now := 95;
     TokenManager.cache := <[client_us := test_token]> ∅;
     TokenManager.inflight := ∅;
     TokenManager.received := ∅;
     TokenManager.round_trips := <[client_us := 1]> ∅ |}.

End Fixtures.

(** * Properties of the parameter resolution of [generate_stubs.py] *)

Module StubsFacts.
Import Py Stubs.

Lemma contains_elem_of x l : contains x l = true ↔ x ∈ l.
Proof. unfold contains. apply bool_decide_eq_true. Qed.

Lemma index_Some x l : x ∈ l → ∃ i, index x l = Some i.
Proof.
  induction l as [|y l IH]; intros Hin.
  - by apply elem_of_nil in Hin.
  - simpl. destruct (decide (y = x)) as [->|Hne]; [by eexists|].
    apply elem_of_cons in Hin as [->|Hin]; [done|].
    destruct (IH Hin) as [i ->]. by eexists.
Qed.

Lemma index_None x l : x ∉ l → index x l = None.
Proof.
  induction l as [|y l IH]; intros Hin; [done|]. simpl.
  apply not_elem_of_cons in Hin as [Hne Hin].
  destruct (decide (y = x)); [congruence|]. by rewrite IH.
Qed.

(** [index] finds the first occurrence. *)
Lemma index_first x l i :
  index x l = Some i →
  l !! i = Some x ∧ ∀ j, j < i → l !! j ≠ Some x.
Proof.
  revert i. induction l as [|y l IH]; intros i; [done|]. simpl.
  destruct (decide (y = x)) as [->|Hne].
  - intros [= <-]. split; [done|]. intros j Hj. lia.
  - destruct (index x l) as [i'|] eqn:Hi; [|done].
    intros [= <-]. destruct (IH i' eq_refl) as [Hl Hfirst].
    split; [done|]. intros [|j] Hj; simpl; [congruence|].
    apply Hfirst. lia.
Qed.

Lemma truthy_opt_str_Some s : s ≠ "" → truthy_opt_str (Some s) = true.
Proof. intros Hs. simpl. unfold truthy_str. by destruct (decide (s = "")). Qed.

(** The substitution, written out for a declared (non-empty) name and a
    sequence that contains ["id"]. *)
Lemma substitute_id_hit e s ps :
  param_name e = Some s → s ≠ "" → "id" ∈ ps →
  ∃ idx, index "id" ps = Some idx ∧ substitute_id e ps = <[idx := s]> ps.
Proof.
  intros Hp Hs Hin. destruct (index_Some _ _ Hin) as [idx Hidx].
  exists idx. split; [done|]. unfold substitute_id.
  rewrite Hp, (truthy_opt_str_Some _ Hs), Hidx.
  by rewrite (proj2 (contains_elem_of _ _) Hin).
Qed.

(** Without an ["id"] entry the sequence is returned as it is. *)
Lemma substitute_id_miss e ps : "id" ∉ ps → substitute_id e ps = ps.
Proof.
  intros Hin. unfold substitute_id. rewrite (index_None _ _ Hin).
  by destruct (_ && _).
Qed.

(** C1.  When the descriptor declares a [param_name] (a non-empty name,
    which is what [endpoint.get("param_name")] tests) and the base
    sequence contains ["id"], the resolved sequence is the base sequence
    with its first ["id"] entry, at index [idx], replaced by that name:
    the entry at [idx] is the name, every other index holds what the base
    sequence holds, and the length is unchanged. *)
Theorem param_name_substitution e patterns s :
  param_name e = Some s → s ≠ "" → "id" ∈ base_params e patterns →
  ∃ idx,
    index "id" (base_params e patterns) = Some idx ∧
    base_params e patterns !! idx = Some "id" ∧
    (∀ j, j < idx → base_params e patterns !! j ≠ Some "id") ∧
    (get_endpoint_params e patterns).1 = <[idx := s]> (base_params e patterns) ∧
    (get_endpoint_params e patterns).1 !! idx = Some s ∧
    (∀ j, j ≠ idx →
       (get_endpoint_params e patterns).1 !! j = base_params e patterns !! j) ∧
    length (get_endpoint_params e patterns).1 = length (base_params e patterns).
Proof.
  intros Hp Hs Hin.
  destruct (substitute_id_hit e s _ Hp Hs Hin) as (idx & Hidx & Hsub).
  destruct (index_first _ _ _ Hidx) as [Hat Hfirst].
  exists idx. simpl. rewrite Hsub. repeat split; try done.
  - apply list_lookup_insert_eq. by eapply lookup_lt_Some.
  - intros j Hj. by apply list_lookup_insert_ne.
  - apply length_insert.
Qed.

Lemma param_name_substitution_witness :
  (get_endpoint_params Fixtures.get_achievement Fixtures.wow_patterns).1
  = ["region"; "locale"; "achievement_id"].
Proof.
  destruct (param_name_substitution Fixtures.get_achievement
              Fixtures.wow_patterns "achievement_id")
    as (idx & Hidx & _ & _ & Heq & _).
  - reflexivity.
  - discriminate.
  - apply (bool_decide_unpack _). vm_compute. exact I.
  - rewrite Heq. vm_compute in Hidx. injection Hidx as <-.
    vm_compute. reflexivity.
Defined.

(** C10.  When the base sequence has no ["id"] entry, resolution returns
    the base sequence unchanged, whatever [param_name] the descriptor
    sets; the function is total, so no error is raised. *)
Theorem substitution_skipped_without_id e patterns :
  "id" ∉ base_params e patterns →
  (get_endpoint_params e patterns).1 = base_params e patterns.
Proof. intros Hin. simpl. by apply substitute_id_miss. Qed.

Lemma substitution_skipped_without_id_witness :
  (get_endpoint_params Fixtures.search_decor_named Fixtures.wow_patterns).1
  = ["region"; "locale"].
Proof.
  rewrite (substitution_skipped_without_id Fixtures.search_decor_named
             Fixtures.wow_patterns).
  - vm_compute. reflexivity.
  - apply (bool_decide_unpack _). vm_compute. exact I.
Defined.

(** The kwargs flag is a disjunction: the descriptor's own flag, or the
    flag of the template it names. *)
Lemma resolve_accepts_kwargs_or e patterns :
  resolve_accepts_kwargs e patterns
  = truthy_opt_bool (accepts_kwargs e)
    || (truthy_opt_str (pattern e) && truthy_dict patterns
        && truthy_opt_bool (pt_accepts_kwargs (lookup_pattern e patterns))).
Proof.
  unfold resolve_accepts_kwargs.
  destruct (accepts_kwargs e) as [[]|]; simpl; try done;
    destruct (truthy_opt_str (pattern e)), (truthy_dict patterns); simpl;
    try done; by destruct (pt_accepts_kwargs _).
Qed.

(** X1.  [has_kwargs_endpoints] agrees with it: some endpoint resolves to a
    true flag. *)
Lemma has_kwargs_endpoints_spec eps patterns :
  has_kwargs_endpoints eps patterns = true
  ↔ ∃ e, e ∈ eps ∧ (get_endpoint_params e patterns).2 = true.
Proof.
  induction eps as [|e eps IH]; simpl.
  - split; [done|]. intros (e & He & _). by apply elem_of_nil in He.
  - pose proof (resolve_accepts_kwargs_or e patterns) as Hor.
    destruct (truthy_opt_bool (accepts_kwargs e)) eqn:Hown; simpl in Hor.
    { split; [|done]. intros _. exists e. split; [left|done]. }
    destruct (_ && _ && _) eqn:Hpat.
    { split; [|done]. intros _. exists e. split; [left|done]. }
    rewrite IH. split.
    + intros (e' & He' & Hf). exists e'. split; [by right|done].
    + intros (e' & He' & Hf). apply elem_of_cons in He' as [->|He'].
      * simpl in Hf. congruence.
      * by exists e'.
Qed.

(** C2, as stated, fails: a descriptor that sets the flag to false
    explicitly still inherits a true flag from its template. *)
Lemma explicit_false_is_overridden :
  ¬ (∀ e patterns b,
       accepts_kwargs e = Some b → (get_endpoint_params e patterns).2 = b).
Proof.
  intros H.
  specialize (H Fixtures.search_decor_strict Fixtures.wow_patterns false
                eq_refl).
  vm_compute in H. discriminate.
Qed.

(** C2, amended.  The resolved flag is true when the descriptor sets it
    to true.  When the descriptor leaves it unset or sets it to false, the
    flag is the one of the template the descriptor names (false when that
    template is unknown or does not set it), provided the descriptor names
    a template and the config has templates; otherwise it is false. *)
Theorem accepts_kwargs_resolution e patterns :
  (accepts_kwargs e = Some true →
     (get_endpoint_params e patterns).2 = true) ∧
  (accepts_kwargs e ≠ Some true →
     truthy_opt_str (pattern e) = true → truthy_dict patterns = true →
     (get_endpoint_params e patterns).2
     = default false (pt_accepts_kwargs (lookup_pattern e patterns))) ∧
  (accepts_kwargs e ≠ Some true →
     truthy_opt_str (pattern e) = false ∨ truthy_dict patterns = false →
     (get_endpoint_params e patterns).2 = false).
Proof.
  simpl. unfold resolve_accepts_kwargs. repeat split.
  - by intros ->.
  - intros Hne -> ->. by destruct (accepts_kwargs e) as [[]|].
  - intros Hne Hor.
    destruct (accepts_kwargs e) as [[]|]; simpl; try done;
      destruct Hor as [-> | ->]; try done;
      by destruct (truthy_opt_str _).
Qed.

Lemma accepts_kwargs_resolution_witness :
  (get_endpoint_params Fixtures.search_decor_strict Fixtures.wow_patterns).2
  = true.
Proof.
  destruct (accepts_kwargs_resolution Fixtures.search_decor_strict
              Fixtures.wow_patterns) as (_ & Hinherit & _).
  rewrite Hinherit.
  - vm_compute. reflexivity.
  - discriminate.
  - vm_compute. reflexivity.
  - vm_compute. reflexivity.
Defined.

(** C8, as stated, fails: for a descriptor with neither pattern reference
    nor explicit path the function raises nothing and returns the default
    parameter sequence. *)
Lemma bare_endpoint_gets_default :
  pattern Fixtures.bare_endpoint = None ∧
  path Fixtures.bare_endpoint = None ∧
  get_endpoint_params Fixtures.bare_endpoint ∅
  = (["region"; "locale"], false).
Proof. repeat split. Qed.

(** C8, amended.  For a descriptor with neither pattern reference nor
    explicit path, resolution raises no error: it returns the descriptor's
    own parameters (with the [param_name] substitution) when it has some,
    and the default [region, locale] otherwise, together with the
    descriptor's own kwargs flag, false when unset. *)
Theorem no_pattern_resolves_to_default e patterns :
  pattern e = None → path e = None →
  get_endpoint_params e patterns
  = (if truthy_opt_list (params e)
     then substitute_id e (default [] (params e))
     else ["region"; "locale"],
     default false (accepts_kwargs e)).
Proof.
  intros Hpat _. unfold get_endpoint_params, base_params,
    resolve_accepts_kwargs. rewrite Hpat. simpl.
  rewrite andb_false_r. f_equal.
  destruct (truthy_opt_list (params e)); [done|].
  apply substitute_id_miss. unfold default_params.
  intros Hin. repeat (apply elem_of_cons in Hin as [Hin|Hin]; [done|]).
  by apply elem_of_nil in Hin.
Qed.

Lemma no_pattern_resolves_to_default_witness :
  get_endpoint_params Fixtures.bare_endpoint Fixtures.wow_patterns
  = (["region"; "locale"], false).
Proof.
  rewrite (no_pattern_resolves_to_default Fixtures.bare_endpoint
             Fixtures.wow_patterns); reflexivity.
Defined.

(** The substitution never removes an entry other than ["id"]. *)
Lemma substitute_id_keeps e ps x :
  x ≠ "id" → x ∈ ps → x ∈ substitute_id e ps.
Proof.
  intros Hx Hin. unfold substitute_id.
  destruct (_ && _); [|done].
  destruct (index "id" ps) as [idx|] eqn:Hidx; [|done].
  destruct (index_first _ _ _ Hidx) as [Hat _].
  apply list_elem_of_lookup in Hin as [i Hi].
  apply list_elem_of_lookup. exists i.
  rewrite list_lookup_insert_ne; [done|]. intros ->. congruence.
Qed.

(** What the substitution leaves alone: the resolved sequence has the
    length of the base sequence and contains [region] whenever the base
    sequence does; the base sequence is the default [region, locale] when
    the descriptor has no own parameters and the template it resolves to
    (if any) has no parameter list of its own. *)
Lemma region_kept_by_resolution e patterns :
  length (get_endpoint_params e patterns).1 = length (base_params e patterns) ∧
  ("region" ∈ base_params e patterns →
     "region" ∈ (get_endpoint_params e patterns).1) ∧
  (truthy_opt_list (params e) = false →
     pt_params (lookup_pattern e patterns) = None →
     (get_endpoint_params e patterns).1 = ["region"; "locale"]).
Proof.
  simpl. repeat split.
  - unfold substitute_id. destruct (_ && _); [|done].
    destruct (index _ _); [|done]. apply length_insert.
  - by apply substitute_id_keeps.
  - intros Hown Hpt. unfold base_params. rewrite Hown, Hpt. simpl.
    assert (Hd : substitute_id e default_params = default_params).
    { apply substitute_id_miss. unfold default_params. intros Hin.
      repeat (apply elem_of_cons in Hin as [Hin|Hin]; [done|]).
      by apply elem_of_nil in Hin. }
    by destruct (_ && _).
Qed.

Lemma region_kept_by_resolution_witness :
  "region" ∈ (get_endpoint_params Fixtures.get_achievement
                Fixtures.wow_patterns).1.
Proof.
  destruct (region_kept_by_resolution Fixtures.get_achievement
              Fixtures.wow_patterns) as (_ & Hkeep & _).
  apply Hkeep. apply (bool_decide_unpack _). vm_compute. exact I.
Defined.

(** The example of the design document. *)
Example achievement_id_replaces_id :
  get_endpoint_params Fixtures.get_achievement Fixtures.wow_patterns
  = (["region"; "locale"; "achievement_id"], false).
Proof. reflexivity. Qed.

(** Only the first ["id"] entry is replaced. *)
Example first_id_only e :
  param_name e = Some "item_id" →
  substitute_id e ["region"; "id"; "locale"; "id"]
  = ["region"; "item_id"; "locale"; "id"].
Proof. intros Hp. unfold substitute_id. by rewrite Hp. Qed.

End StubsFacts.

(** * Properties of the request executor *)

Module ExecutorFacts.
Import Executor.


Lemma classify_429 o ra :
  classify o = CRateLimited ra →
  is_429 o = true ∧ ∃ resp, o = Responded resp ∧ ra = retry_after_header resp.
Proof.
  destruct o as [resp|]; simpl; [|done].
  repeat case_bool_decide; intros [= <-] || intros [=]; by eauto.
Qed.

Lemma classify_not_429 o :
  (∀ ra, classify o ≠ CRateLimited ra) → is_429 o = false.
Proof.
  destruct o as [resp|]; simpl; [|done]. intros H.
  repeat case_bool_decide; try done; try lia; exfalso; by eapply H.
Qed.

Section Runs.
Context {B : Type} `{!Transport B}.
Variable policy : RetryPolicy.
Variable req : RequestContext.

Lemma attempt_unfold on_401 tok left b :
  attempt policy req on_401 tok left b
  = let '(o, b1) := http_get req tok b in
    match classify o with
    | CSuccess payload => (Returned payload, [EGet o], b1)
    | CUnauthorized =>
        let '(r, ev, b2) := on_401 left b1 in (r, EGet o :: ev, b2)
    | CRateLimited ra => (Raised (RateLimitError ra), [EGet o], b1)
    | CTransient =>
        match left with
        | O => (Raised ServerError, [EGet o], b1)
        | S left' =>
            let '(r, ev, b2) := attempt policy req on_401 tok left' b1 in
            (r, EGet o :: ESleep (backoff policy (max_retries policy - left))
                  :: ev, b2)
        end
    | CFatal e => (Raised e, [EGet o], b1)
    end.
Proof. by destruct left. Qed.

Ltac step_attempt o b1 Hget Hcl :=
  rewrite attempt_unfold;
  destruct (http_get _ _ _) as [o b1] eqn:Hget;
  destruct (classify o) eqn:Hcl.






(** A 429 is final in the loop, whatever the handler of a 401 does, as
    long as that handler surfaces rate limits too. *)
Lemma attempt_rate_limit on_401 tok left b r ev b' :
  (∀ l b0 r0 ev0 b0',
     on_401 l b0 = (r0, ev0, b0') → rate_limit_surfaced r0 ev0) →
  attempt policy req on_401 tok left b = (r, ev, b') →
  rate_limit_surfaced r ev.
Proof.
  intros Hh. revert b r ev b'.
  induction left as [|left IH]; intros b r ev b';
    step_attempt o b1 Hget Hcl;
    try (intros ?; simplify_eq; intros o' post; simpl;
         rewrite classify_not_429 by congruence; done);
    try (destruct (on_401 _ _) as [[r' ev'] b2] eqn:Hon;
         intros ?; simplify_eq; intros o' post; simpl;
         rewrite classify_not_429 by congruence; by eapply Hh);
    try (intros ?; simplify_eq; intros o' post; simpl;
         destruct (classify_429 _ _ Hcl) as (H429 & resp & -> & ->);
         rewrite H429; intros ?; simplify_eq; split; [done|];
         exists resp; simpl in H429; by case_bool_decide).
  destruct (attempt _ _ _ _ _ _) as [[r' ev'] b2] eqn:Hrec.
  intros ?; simplify_eq. intros o' post. simpl.
  rewrite classify_not_429 by congruence. by eapply IH.
Qed.

Lemma refresh_and_retry_rate_limit left b r ev b' :
  refresh_and_retry policy req left b = (r, ev, b') →
  rate_limit_surfaced r ev.
Proof.
  unfold refresh_and_retry.
  destruct (token_supplier true b) as [[t|] b1] eqn:Htok.
  - destruct (attempt _ _ _ _ _ _) as [[r' ev'] b2] eqn:Hretry.
    intros ?; simplify_eq. intros o post. simpl.
    eapply attempt_rate_limit; [|done].
    unfold persisting_401. intros; simplify_eq. by intros ??.
  - intros ?; simplify_eq. by intros ??.
Qed.

(** C7.  In every run of [execute], a GET answered 429 is the last
    event of the run: nothing is retried, and the run raises
    [RateLimitError] whose [retry_after] is the retry-after header of
    that answer (so it is the header value whenever there is one). *)
Theorem rate_limit_not_retried b :
  rate_limit_surfaced (execute policy req b).1.1 (execute policy req b).1.2.
Proof.
  unfold execute. destruct (requires_auth req).
  - destruct (token_supplier false b) as [[t|] b1] eqn:Htok;
      [|by intros ??].
    destruct (attempt _ _ _ _ _ _) as [[r ev] b2] eqn:Hrun.
    intros o post. simpl.
    eapply attempt_rate_limit; [|done].
    apply refresh_and_retry_rate_limit.
  - destruct (attempt _ _ _ _ _ _) as [[r ev] b2] eqn:Hrun. simpl.
    eapply attempt_rate_limit; [|done].
    apply refresh_and_retry_rate_limit.
Qed.

End Runs.

(** Two consecutive 401 answers: one forced refresh, two GETs, then
    [TokenError]; the third answer of the script is never fetched. *)
Example second_401_raises_token_error :
  execute Fixtures.test_policy Fixtures.achievement_request
          Fixtures.unauthorized_backend
  = (Raised TokenError,
     [EToken false (Granted Fixtures.test_token);
      EGet (Fixtures.response 401 None "");
      EToken true (Granted Fixtures.fresh_token);
      EGet (Fixtures.response 401 None "")],
     {| Fixtures.get_answers := [Fixtures.response 200 None "{id: 6}"];
        Fixtures.token_answers := [] |}).
Proof. reflexivity. Qed.

(** A 429 with header 60: [RateLimitError] with [retry_after = 60] after
    a single GET. *)
Example rate_limit_carries_header :
  execute Fixtures.test_policy Fixtures.achievement_request
          Fixtures.rate_limited_backend
  = (Raised (RateLimitError (Some 60%Z)),
     [EToken false (Granted Fixtures.test_token);
      EGet (Fixtures.response 429 (Some 60%Z) "")],
     {| Fixtures.get_answers := [Fixtures.response 200 None "{id: 6}"];
        Fixtures.token_answers := [] |}).
Proof. reflexivity. Qed.

End ExecutorFacts.

(** * Properties of the generated operations *)

Module FacadeFacts.
Import Executor Facade.

Section Variants.
Context {B : Type} `{!Transport B}.
Variable valid_locales : string → list string.
Variable expand_path : string → gmap string string → string.

(** A required name that the call does not give makes [prepare] fail
    with the full list of required names. *)
Lemma prepare_missing op kwargs n :
  n ∈ required_params (op_pattern op) →
  n ≠ "region" → n ≠ "locale" → given kwargs n = false →
  ∃ e, prepare valid_locales expand_path op kwargs
       = inl (MissingParameter e) ∧
       Validation.required_params e
       = Some (required_params (op_pattern op)).
Proof.
  intros Hin Hr Hl Hg. unfold prepare.
  assert (Hmiss : n ∈ missing_params (op_pattern op) kwargs).
  { unfold missing_params. apply list_elem_of_filter. by repeat split. }
  destruct (missing_params _ _) as [|m ms] eqn:Hm.
  - by apply elem_of_nil in Hmiss.
  - by eexists.
Qed.

(** C3.  When a required name other than [region] and [locale] is
    absent or empty in the call, the operation raises
    [MissingParameterError] whose [required_params] is the full list of
    required names of the endpoint; the run has no event, so no network
    request was issued, and the backend is left as it was.  The
    non-blocking variant does the same. *)
Theorem missing_parameter_before_network op kwargs n (b : B) :
  n ∈ required_params (op_pattern op) →
  n ≠ "region" → n ≠ "locale" → given kwargs n = false →
  ∃ e,
    Validation.required_params e
    = Some (required_params (op_pattern op)) ∧
    call valid_locales expand_path op kwargs b
    = (Raised (MissingParameter e), [], b) ∧
    run_prog (call_async valid_locales expand_path op kwargs) b
    = (Raised (MissingParameter e), [], b) ∧
    network_calls (call valid_locales expand_path op kwargs b).1.2 = 0.
Proof.
  intros Hin Hr Hl Hg.
  destruct (prepare_missing op kwargs n Hin Hr Hl Hg) as (e & Hp & He).
  exists e. unfold call, call_async. rewrite Hp. by repeat split.
Qed.

Section Loop.
Variable policy : RetryPolicy.
Variable req : RequestContext.

(** The coroutine of the retry loop, driven by the event loop, does
    what the blocking loop does, provided the handlers of a 401
    agree. *)
Lemma run_attempt_async on_401 on_401_async tok left (b : B) :
  (∀ l b0, run_prog (on_401_async l) b0 = on_401 l b0) →
  run_prog (attempt_async policy req on_401_async tok left) b
  = attempt policy req on_401 tok left b.
Proof.
  intros Hh. revert b. induction left as [|left IH]; intros b; simpl;
    destruct (http_get req tok b) as [o b1];
    destruct (classify o); simpl; try done;
    try (rewrite Hh; by destruct (on_401 _ _) as [[??]?]).
  rewrite IH. by destruct (attempt _ _ _ _ _ _) as [[??]?].
Qed.

Lemma run_refresh_and_retry_async left (b : B) :
  run_prog (refresh_and_retry_async policy req left) b
  = refresh_and_retry policy req left b.
Proof.
  unfold refresh_and_retry_async, refresh_and_retry. simpl.
  destruct (token_supplier true b) as [[t|] b1]; [|done].
  rewrite (run_attempt_async persisting_401); [|done].
  by destruct (attempt _ _ _ _ _ _) as [[??]?].
Qed.

Lemma run_execute_async (b : B) :
  run_prog (execute_async policy req) b = execute policy req b.
Proof.
  unfold execute_async, execute. destruct (requires_auth req); simpl.
  - destruct (token_supplier false b) as [[t|] b1]; [|done].
    rewrite (run_attempt_async (refresh_and_retry policy req));
      [|apply run_refresh_and_retry_async].
    by destruct (attempt _ _ _ _ _ _) as [[??]?].
  - apply run_attempt_async, run_refresh_and_retry_async.
Qed.

End Loop.

(** C9.  For every operation, arguments and backend state, the
    non-blocking variant driven to completion and the blocking variant
    yield the same outcome (the same validation error, or the same
    decoded payload), after the same network events, and leave the
    backend in the same state. *)
Theorem sync_async_agree op kwargs (b : B) :
  run_prog (call_async valid_locales expand_path op kwargs) b
  = call valid_locales expand_path op kwargs b.
Proof.
  unfold call_async, call.
  destruct (prepare valid_locales expand_path op kwargs) as [e|req];
    [done|].
  apply run_execute_async.
Qed.

End Variants.

Lemma missing_parameter_before_network_witness :
  ∃ e,
    Validation.required_params e
    = Some ["region"; "locale"; "achievement_id"] ∧
    call Fixtures.locales_of Fixtures.keep_template Fixtures.achievement_op
         Fixtures.call_without_id Fixtures.achievement_backend
    = (Raised (MissingParameter e), [], Fixtures.achievement_backend).
Proof.
  destruct (missing_parameter_before_network Fixtures.locales_of
              Fixtures.keep_template Fixtures.achievement_op
              Fixtures.call_without_id "achievement_id"
              Fixtures.achievement_backend)
    as (e & He & Hcall & _).
  - apply (bool_decide_unpack _). vm_compute. exact I.
  - discriminate.
  - discriminate.
  - vm_compute. reflexivity.
  - exists e. split; [exact He | exact Hcall].
Defined.

(** The end-to-end scenario of [test_sync_api_call], and its
    non-blocking twin. *)
Example get_achievement_returns_payload :
  let kwargs := <["achievement_id" := "6"]> Fixtures.call_without_id in
  (call Fixtures.locales_of Fixtures.keep_template Fixtures.achievement_op
        kwargs Fixtures.achievement_backend).1.1
  = Returned "{id: 6, name: Level 10}" ∧
  (run_prog (call_async Fixtures.locales_of Fixtures.keep_template
               Fixtures.achievement_op kwargs)
            Fixtures.achievement_backend).1.1
  = Returned "{id: 6, name: Level 10}".
Proof. split; vm_compute; reflexivity. Qed.

End FacadeFacts.

(** * Properties of the token manager *)

Module TokenManagerFacts.
Import Executor TokenManager.

Lemma deliver_lookup o ws (m : gmap nat TokenOutcome) c :
  c ∈ ws → deliver o ws m !! c = Some o.
Proof.
  induction ws as [|w ws IH]; intros Hin; [by apply elem_of_nil in Hin|].
  simpl. destruct (decide (w = c)) as [->|Hne].
  - apply lookup_insert_eq.
  - rewrite lookup_insert_ne by done. apply IH.
    by apply elem_of_cons in Hin as [->|Hin].
Qed.

Lemma run_app margin sched1 sched2 s :
  run margin (sched1 ++ sched2) s = run margin sched2 (run margin sched1 s).
Proof. unfold run. apply foldl_app. Qed.

Section SingleFlight.
Variable margin : Z.
Variable k : string * string.
Variable s0 : State.

Hypothesis expired : usable margin s0 k = None.

Lemma still_expired s callers :
  awaiting k s0 s callers → usable margin s k = None.
Proof.
  intros (Hnow & Hcache & _). unfold usable in *. rewrite Hcache.
  destruct (cache s0 !! k) as [t|]; [|done].
  repeat case_bool_decide; try done. lia.
Qed.

Lemma awaiting_step a s callers :
  completes k a = false → awaiting k s0 s callers →
  awaiting k s0 (step margin a s) (callers ++ callers_of k [a]).
Proof.
  intros Hnc Hinv. pose proof (still_expired _ _ Hinv) as Hexp.
  destruct Hinv as (Hnow & Hcache & Hfl).
  destruct a as [c k'|k' o|d]; simpl.
  - destruct (decide (k' = k)) as [->|Hne]; simpl.
    + rewrite Hexp.
      destruct Hfl as [(-> & Hnone & Htrips)|(Hcs & Htrips & ws & Hws & Hall)].
      * rewrite Hnone. split; [done|]. split; [done|]. right.
        split; [done|]. unfold trips in *. simpl.
        rewrite lookup_insert_eq. simpl. split; [by rewrite Htrips|].
        exists [c]. by rewrite lookup_insert_eq.
      * rewrite Hws. split; [done|]. split; [done|]. right.
        split; [by destruct callers|]. split; [done|].
        exists (c :: ws). simpl. rewrite lookup_insert_eq.
        split; [done|]. intros c' Hc'.
        apply elem_of_app in Hc' as [Hc'|Hc'].
        -- right. by apply Hall.
        -- apply list_elem_of_singleton in Hc' as ->. left.
    + rewrite app_nil_r.
      destruct (usable margin s k') as [t|]; [done|].
      destruct (inflight s !! k') as [ws'|];
        unfold awaiting, trips in *; simpl;
        rewrite ?lookup_insert_ne by done; done.
  - rewrite app_nil_r. simpl in Hnc.
    apply bool_decide_eq_false in Hnc.
    destruct (inflight s !! k') as [ws'|]; [|done].
    unfold awaiting, trips in *; simpl.
    rewrite lookup_delete_ne by done.
    split; [done|]. split; [|done].
    destruct o; [by rewrite lookup_insert_ne|done].
  - rewrite app_nil_r. unfold awaiting, trips in *; simpl.
    split; [lia|]. done.
Qed.

Lemma awaiting_run sched s callers :
  Forall (λ a, completes k a = false) sched → awaiting k s0 s callers →
  awaiting k s0 (run margin sched s) (callers ++ callers_of k sched).
Proof.
  revert s callers. induction sched as [|a sched IH];
    intros s callers Hnc Hinv.
  - by rewrite app_nil_r.
  - apply Forall_cons in Hnc as [Ha Hnc].
    change (run margin (a :: sched) s)
      with (run margin sched (step margin a s)).
    replace (callers ++ callers_of k (a :: sched))%list
      with ((callers ++ callers_of k [a]) ++ callers_of k sched)%list.
    + apply IH; [done|]. by apply awaiting_step.
    + rewrite <- app_assoc. f_equal. unfold callers_of. simpl.
      by destruct a as [c k'| |]; [destruct (decide (k' = k))| |].
Qed.

End SingleFlight.

(** C5.  For every key [k]: (1) when the cached token is usable
    ([now < expires_at - safety_margin]), a request returns it and sends
    nothing to the authorization server; (2) when it is not, and no
    refresh is in flight, then for every schedule in which callers
    request a token for [k] (interleaved at will with requests and
    completions for other keys and with the passing of time) before the
    refresh completes with outcome [o], exactly one round trip for [k]
    has occurred and every one of these callers has received [o], the
    token or the failure of that single refresh. *)
Theorem single_flight margin k s :
  (∀ t c, usable margin s k = Some t →
     received (step margin (Request c k) s) !! c = Some (Granted t) ∧
     round_trips (step margin (Request c k) s) = round_trips s) ∧
  (∀ sched o,
     usable margin s k = None → inflight s !! k = None →
     Forall (λ a, completes k a = false) sched →
     callers_of k sched ≠ [] →
     trips (run margin (sched ++ [Complete k o]) s) k = S (trips s k) ∧
     ∀ c, c ∈ callers_of k sched →
       received (run margin (sched ++ [Complete k o]) s) !! c = Some o).
Proof.
  split.
  - intros t c Hu. simpl. rewrite Hu. simpl.
    split; [apply lookup_insert_eq|done].
  - intros sched o Hexp Hfl Hnc Hcs.
    assert (Hstart : awaiting k s s []).
    { split; [lia|]. split; [done|]. by left. }
    pose proof (awaiting_run margin k s Hexp sched s [] Hnc Hstart)
      as (_ & _ & [(Hnil & _)|(_ & Htrips & ws & Hws & Hall)]).
    { simpl in Hnil. congruence. }
    rewrite run_app. simpl in *.
    change (run margin [Complete k o] (run margin sched s))
      with (step margin (Complete k o) (run margin sched s)).
    simpl. rewrite Hws. unfold trips in *. simpl. split; [done|].
    intros c Hc. apply deliver_lookup. by apply Hall.
Qed.

Lemma single_flight_witness :
  let s' := run 30 (Fixtures.three_callers
                    ++ [Complete Fixtures.client_us
                          (Granted Fixtures.fresh_token)])
                Fixtures.expired_state in
  trips s' Fixtures.client_us = 2 ∧
  (∀ c, c ∈ [1; 2; 3] → received s' !! c = Some (Granted Fixtures.fresh_token)) ∧
  received (step 30 (Request 9 Fixtures.client_us) Fixtures.valid_state) !! 9
  = Some (Granted Fixtures.test_token).
Proof.
  destruct (single_flight 30 Fixtures.client_us Fixtures.expired_state)
    as [_ Hrefresh].
  destruct (Hrefresh Fixtures.three_callers (Granted Fixtures.fresh_token))
    as [Htrips Hall].
  - vm_compute. reflexivity.
  - vm_compute. reflexivity.
  - repeat constructor.
  - discriminate.
  - destruct (single_flight 30 Fixtures.client_us Fixtures.valid_state)
      as [Hcached _].
    destruct (Hcached Fixtures.test_token 9) as [Hgot _].
    + vm_compute. reflexivity.
    + split; [exact Htrips|]. split; [exact Hall|exact Hgot].
Defined.

End TokenManagerFacts.

(** * The messages of the validation errors *)

Module ValidationFacts.
Import Validation.

(** [test_validation_error_with_field]. *)
Example missing_region_message :
  missing_parameter_str
    {| mp_base := {| message := "Missing region"; field := Some "region";
                     invalid_value := None |};
       required_params := Some ["region"; "locale"; "achievement_id"] |}
  = "ValidationError: Missing region | Field: region | Required: region, locale, achievement_id".
Proof. reflexivity. Qed.

(** [test_invalid_region_error]. *)
Example invalid_region_message :
  invalid_region_str
    {| ir_base := {| message := "Invalid region"; field := Some "region";
                     invalid_value := Some "usa" |};
       valid_regions := Some ["us"; "eu"; "kr"] |}
  = "ValidationError: Invalid region | Field: region | Invalid value: usa | Valid regions: us, eu, kr".
Proof. reflexivity. Qed.

(** Without a list, or with an empty one, nothing is appended. *)
Lemma with_list_falsy label l msg :
  Py.truthy_opt_list l = false → with_list label l msg = msg.
Proof. intros H. unfold with_list. by rewrite H. Qed.

End ValidationFacts.

(** * Further properties of the parameter resolution *)

Module ResolutionFacts.
Import Py Stubs.

Lemma default_params_no_id : "id" ∉ default_params.
Proof.
  unfold default_params. intros Hin.
  repeat (apply elem_of_cons in Hin as [Hin|Hin]; [done|]).
  by apply elem_of_nil in Hin.
Qed.

(** X2.  A pattern reference that the templates do not define (a misspelt
    name, or a config without templates) raises nothing: without own
    parameters the endpoint resolves to the default [region, locale], and
    the kwargs flag is the descriptor's own. *)
Theorem unknown_pattern_defaults e patterns name :
  truthy_opt_list (params e) = false →
  pattern e = Some name → patterns !! name = None →
  get_endpoint_params e patterns
  = (["region"; "locale"], default false (accepts_kwargs e)).
Proof.
  intros Hown Hpat Hmiss.
  unfold get_endpoint_params, base_params, resolve_accepts_kwargs,
    lookup_pattern.
  rewrite Hown, Hpat, Hmiss. simpl. f_equal.
  - destruct (_ && _); apply StubsFacts.substitute_id_miss,
      default_params_no_id.
  - by destruct (accepts_kwargs e) as [[]|], (truthy_str name),
      (truthy_dict patterns).
Qed.

Lemma unknown_pattern_defaults_witness :
  get_endpoint_params
    {| method_name := "get_mount"; description := None;
       pattern := Some "get_by_idd"; path := None; params := Some [];
       param_name := Some "mount_id"; accepts_kwargs := None |}
    Fixtures.wow_patterns
  = (["region"; "locale"], false).
Proof.
  rewrite (unknown_pattern_defaults _ Fixtures.wow_patterns "get_by_idd").
  - reflexivity.
  - reflexivity.
  - reflexivity.
  - vm_compute. reflexivity.
Defined.

(** Own parameters take precedence: when the descriptor has a
    non-empty parameter list, the resolved parameters are that list with
    the substitution applied, whatever the templates hold and whichever
    template the descriptor names. *)
Theorem own_params_take_precedence e patterns own :
  params e = Some own → own ≠ [] →
  (get_endpoint_params e patterns).1 = substitute_id e own.
Proof.
  intros Hown Hne. simpl. unfold base_params. rewrite Hown.
  by destruct own.
Qed.

Lemma own_params_take_precedence_witness :
  (get_endpoint_params
     {| method_name := "get_item"; description := None;
        pattern := Some "search"; path := None;
        params := Some ["region"; "id"];
        param_name := Some "item_id"; accepts_kwargs := None |}
     Fixtures.wow_patterns).1
  = ["region"; "item_id"].
Proof.
  rewrite (own_params_take_precedence _ Fixtures.wow_patterns
             ["region"; "id"]).
  - vm_compute. reflexivity.
  - reflexivity.
  - discriminate.
Defined.

Lemma NoDup_list_insert (l : list string) i x :
  NoDup l → x ∉ l → NoDup (<[i := x]> l).
Proof.
  revert i. induction l as [|y l IH]; intros i Hnd Hx; [done|].
  apply NoDup_cons in Hnd as [Hy Hnd].
  apply not_elem_of_cons in Hx as [Hxy Hx].
  destruct i as [|i]; simpl.
  - apply NoDup_cons. by split.
  - apply NoDup_cons. split; [|by apply IH].
    intros Hin. apply list_elem_of_lookup in Hin as [j Hj].
    destruct (decide (i = j)) as [->|Hij].
    + destruct (decide (j < length l)) as [Hlt|Hge].
      * rewrite list_lookup_insert_eq in Hj by done. congruence.
      * rewrite list_insert_ge in Hj by lia.
        apply Hy, list_elem_of_lookup. by exists j.
    + rewrite list_lookup_insert_ne in Hj by done.
      apply Hy, list_elem_of_lookup. by exists j.
Qed.

(** X3.  Resolution keeps parameter names distinct: when the base sequence
    has no duplicate and does not already hold the substitution name, the
    resolved sequence has no duplicate either. *)
Theorem resolution_keeps_names_distinct e patterns :
  NoDup (base_params e patterns) →
  (∀ s, param_name e = Some s → s ∉ base_params e patterns) →
  NoDup (get_endpoint_params e patterns).1.
Proof.
  intros Hnd Hfresh. simpl. unfold substitute_id.
  destruct (param_name e) as [s|] eqn:Hp; simpl; [|done].
  destruct (_ && _); [|done].
  destruct (index "id" _) as [idx|]; [|done].
  apply NoDup_list_insert; [done|]. by apply Hfresh.
Qed.

Lemma resolution_keeps_names_distinct_witness :
  NoDup (get_endpoint_params Fixtures.get_achievement Fixtures.wow_patterns).1.
Proof.
  apply resolution_keeps_names_distinct.
  - apply (bool_decide_unpack _). vm_compute. exact I.
  - intros s [= <-]. apply (bool_decide_unpack _). vm_compute. exact I.
Defined.

(** X4.  The generic placeholder does not survive: when the descriptor
    declares a name other than ["id"] and the base sequence has no
    duplicate, no ["id"] entry is left after resolution. *)
Theorem placeholder_is_eliminated e patterns s :
  param_name e = Some s → s ≠ "" → s ≠ "id" →
  NoDup (base_params e patterns) →
  "id" ∉ (get_endpoint_params e patterns).1.
Proof.
  intros Hp Hs Hid Hnd. simpl.
  destruct (decide ("id" ∈ base_params e patterns)) as [Hin|Hin].
  - destruct (StubsFacts.substitute_id_hit e s _ Hp Hs Hin)
      as (idx & Hidx & ->).
    destruct (StubsFacts.index_first _ _ _ Hidx) as [Hat _].
    intros Hleft. apply list_elem_of_lookup in Hleft as [j Hj].
    destruct (decide (idx = j)) as [->|Hij].
    + rewrite list_lookup_insert_eq in Hj by (by eapply lookup_lt_Some).
      congruence.
    + rewrite list_lookup_insert_ne in Hj by done.
      apply Hij. by eapply NoDup_lookup.
  - by rewrite StubsFacts.substitute_id_miss.
Qed.

Lemma placeholder_is_eliminated_witness :
  "id" ∉ (get_endpoint_params Fixtures.get_achievement Fixtures.wow_patterns).1.
Proof.
  apply (placeholder_is_eliminated _ _ "achievement_id").
  - reflexivity.
  - discriminate.
  - discriminate.
  - apply (bool_decide_unpack _). vm_compute. exact I.
Defined.

End ResolutionFacts.

(** * Properties of the stub generator *)

Module GeneratorFacts.
Import Py Stubs.

(** ** Strings *)

Lemma str_app_cons x (a b : string) : String x a ++ b = String x (a ++ b).
Proof. reflexivity. Qed.

Lemma str_app_assoc (a b c : string) : (a ++ b) ++ c = a ++ (b ++ c).
Proof.
  induction a as [|x a IH]; [done|]. rewrite !str_app_cons. by f_equal.
Qed.

Lemma str_app_length (a b : string) :
  String.length (a ++ b) = String.length a + String.length b.
Proof.
  induction a as [|x a IH]; [done|]. rewrite str_app_cons. simpl.
  by f_equal.
Qed.

Lemma startswith_app p s : startswith p (p ++ s) = true.
Proof.
  induction p as [|a p IH]; [done|]. rewrite str_app_cons. simpl.
  by destruct (decide (a = a)).
Qed.

Lemma startswith_refl s : startswith s s = true.
Proof.
  induction s as [|a s IH]; simpl; [done|]. by destruct (decide (a = a)).
Qed.

(** A suffix occurs in the string. *)
Lemma endswith_contains sfx s :
  endswith sfx s = true → str_contains sfx s = true.
Proof.
  induction s as [|a s IH]; intros H.
  - simpl in H. destruct (decide (sfx = "")) as [->|]; done.
  - change (str_contains sfx (String a s))
      with (startswith sfx (String a s) || str_contains sfx s).
    simpl in H. destruct (decide (sfx = String a s)) as [->|Hne].
    + by rewrite startswith_refl.
    + rewrite (IH H). apply orb_true_r.
Qed.

(** Appending on the right can be cancelled. *)
Lemma str_app_inv_tail (a b s : string) : a ++ s = b ++ s → a = b.
Proof.
  revert b. induction a as [|x a IH]; intros [|y b] H.
  - done.
  - apply (f_equal String.length) in H.
    rewrite !str_app_length in H. simpl in H. lia.
  - apply (f_equal String.length) in H.
    rewrite !str_app_length in H. simpl in H. lia.
  - rewrite !str_app_cons in H. injection H as -> H. f_equal. by apply IH.
Qed.

Lemma str_app_nonempty_neq (a s : string) : s ≠ "" → a ≠ a ++ s.
Proof.
  intros Hs H. apply (f_equal String.length) in H.
  rewrite str_app_length in H. destruct s; [done|]. simpl in H. lia.
Qed.

(** ** [get_param_type] *)

(** X5.  Apart from [region], [locale] and [access_token], a parameter is
    typed [int] exactly when ["_id"] occurs somewhere in its name, and
    [str] otherwise: the test [param.endswith("_id")] adds nothing to
    ["_id" in param]. *)
Theorem id_params_are_int p :
  p ≠ "region" → p ≠ "locale" → p ≠ "access_token" →
  get_param_type p = if str_contains "_id" p then "int" else "str".
Proof.
  intros Hr Hl Ha. unfold get_param_type.
  destruct (decide (p = "region")); [done|].
  destruct (decide (p = "locale")); [done|].
  destruct (decide (p = "access_token")); [done|].
  destruct (str_contains "_id" p) eqn:Hc; [done|]. simpl.
  destruct (endswith "_id" p) eqn:He; [|done].
  apply endswith_contains in He. congruence.
Qed.

Lemma id_params_are_int_witness :
  get_param_type "achievement_id" = "int" ∧
  get_param_type "realm_ids" = "int" ∧
  get_param_type "id" = "str".
Proof.
  rewrite !id_params_are_int by discriminate. repeat split.
Defined.

(** ** [generate_api_class_stub] *)

Lemma class_methods_length eps patterns inc :
  length (class_methods eps patterns inc) = 2 * length eps.
Proof.
  induction eps as [|e eps IH]; [done|]. simpl. rewrite IH. lia.
Qed.

(** X6.  The class stub holds two stubs per endpoint, in declaration
    order: for the endpoint at index [i], the blocking stub is at [2 i] and
    the async one at [2 i + 1]; both are generated from the same resolved
    parameters and kwargs flag, and from the description of the endpoint,
    or ["Call <method_name>"] when it has none. *)
Theorem class_methods_in_order eps patterns inc i e :
  eps !! i = Some e →
  let name := method_name e in
  let descr := default ("Call " ++ name) (description e) in
  let ps := (get_endpoint_params e patterns).1 in
  let accepts := (get_endpoint_params e patterns).2 in
  length (class_methods eps patterns inc) = 2 * length eps ∧
  class_methods eps patterns inc !! (2 * i)
  = Some (generate_method_stub name ps descr false accepts inc) ∧
  class_methods eps patterns inc !! (2 * i + 1)
  = Some (generate_method_stub name ps descr true accepts inc).
Proof.
  intros Hi. cbv zeta. split; [apply class_methods_length|].
  revert i Hi. induction eps as [|e' eps IH]; intros i Hi; [done|].
  destruct i as [|i].
  - injection Hi as ->. split; reflexivity.
  - destruct (IH i Hi) as [Hs Ha].
    replace (2 * S i) with (S (S (2 * i))) by lia.
    replace (S (S (2 * i)) + 1) with (S (S (2 * i + 1))) by lia.
    split; [exact Hs | exact Ha].
Qed.

Lemma class_methods_in_order_witness :
  class_methods [Fixtures.bare_endpoint; Fixtures.get_achievement]
                Fixtures.wow_patterns true !! 3
  = Some (generate_method_stub "get_achievement"
            ["region"; "locale"; "achievement_id"]
            "Get an achievement by ID" true false true).
Proof.
  destruct (class_methods_in_order
              [Fixtures.bare_endpoint; Fixtures.get_achievement]
              Fixtures.wow_patterns true 1 Fixtures.get_achievement)
    as (_ & _ & Hasync).
  - reflexivity.
  - exact Hasync.
Defined.

(** ** The [Any] import and the [**kwargs] parameter *)

Lemma last_char_app (a b : string) :
  b ≠ "" → last_char (a ++ b) = last_char b.
Proof.
  intros Hb. induction a as [|x a IH]; [done|].
  rewrite str_app_cons. simpl. rewrite IH.
  destruct (a ++ b) eqn:E; [|done].
  apply (f_equal String.length) in E. rewrite str_app_length in E.
  destruct b; [done|]. simpl in E. lia.
Qed.

(** A rendered parameter is never the [**kwargs] entry: it ends in the
    last letter of a type hint or of [None]. *)
Lemma render_param_not_kwargs p : render_param p ≠ "**kwargs: Any".
Proof.
  intros H. apply (f_equal last_char) in H. revert H.
  unfold render_param, get_param_type.
  destruct (decide (p = "access_token")) as [->|]; [done|].
  destruct (decide (p = "region")) as [->|]; [done|].
  destruct (decide (p = "locale")) as [->|]; [done|].
  destruct (_ || _); by rewrite last_char_app.
Qed.

(** The parameter list of a stub holds [**kwargs: Any] exactly when the
    stub accepts extra keywords. *)
Lemma kwargs_in_param_strs ps accepts inc :
  "**kwargs: Any" ∈ param_strs ps accepts inc ↔ accepts = true.
Proof.
  unfold param_strs. split.
  - destruct accepts; [done|]. intros Hin. exfalso.
    assert (Hmap : "**kwargs: Any" ∉ map render_param ps).
    { intros Hm. apply list_elem_of_In, in_map_iff in Hm as (p & Hp & _).
      by apply render_param_not_kwargs in Hp. }
    destruct inc; repeat (apply elem_of_app in Hin as [Hin|Hin]);
      repeat (apply elem_of_cons in Hin as [Hin|Hin]; [done|]);
      try (by apply elem_of_nil in Hin); done.
  - intros ->. apply elem_of_app. right. left.
Qed.

(** The header imports [Any] exactly when asked to. *)
Lemma any_in_header doc needs :
  "from typing import Any" ∈ header_lines doc needs ↔ needs = true.
Proof.
  unfold header_lines. split.
  - destruct needs; [done|]. intros Hin. exfalso.
    repeat (apply elem_of_cons in Hin as [Hin|Hin]; [done|]).
    by apply elem_of_nil in Hin.
  - intros ->. right. right. left.
Qed.

Lemma has_kwargs_endpoints_flag eps patterns :
  has_kwargs_endpoints eps patterns = true
  ↔ ∃ e, e ∈ eps ∧ resolve_accepts_kwargs e patterns = true.
Proof.
  induction eps as [|e eps IH]; simpl.
  - split; [done|]. intros (e & He & _). by apply elem_of_nil in He.
  - pose proof (StubsFacts.resolve_accepts_kwargs_or e patterns) as Hor.
    destruct (truthy_opt_bool (accepts_kwargs e)); simpl in Hor.
    { split; [|done]. intros _. exists e. split; [left|done]. }
    destruct (_ && _ && _).
    { split; [|done]. intros _. exists e. split; [left|done]. }
    rewrite IH. split.
    + intros (e' & He' & Hf). exists e'. split; [by right|done].
    + intros (e' & He' & Hf). apply elem_of_cons in He' as [->|He'].
      * congruence.
      * by exists e'.
Qed.

Lemma needs_any_flag configs :
  needs_any configs = true
  ↔ ∃ config e, Some config ∈ configs ∧ e ∈ endpoints config ∧
      resolve_accepts_kwargs e (pattern_templates config) = true.
Proof.
  induction configs as [|[config|] configs IH]; simpl.
  - split; [done|]. intros (c & e & Hc & _). by apply elem_of_nil in Hc.
  - destruct (has_kwargs_endpoints _ _) eqn:Hk.
    + split; [|done]. intros _.
      apply has_kwargs_endpoints_flag in Hk as (e & He & Hf).
      exists config, e. split; [left|done].
    + rewrite IH. split.
      * intros (c & e & Hc & He & Hf). exists c, e. split; [by right|done].
      * intros (c & e & Hc & He & Hf).
        apply elem_of_cons in Hc as [[= ->]|Hc]; [|by exists c, e].
        assert (has_kwargs_endpoints (endpoints config)
                  (pattern_templates config) = true); [|congruence].
        apply has_kwargs_endpoints_flag. by exists e.
  - rewrite IH. split.
    + intros (c & e & Hc & He & Hf). exists c, e. split; [by right|done].
    + intros (c & e & Hc & He & Hf).
      apply elem_of_cons in Hc as [[=]|Hc]. by exists c, e.
Qed.

(** X7.  The header of a stub file imports [Any] exactly when one of the
    method stubs generated from its configs has a [**kwargs: Any]
    parameter: [Any] is never used without being imported, nor imported
    without being used. *)
Theorem any_import_iff_kwargs_stub doc configs inc :
  "from typing import Any" ∈ header_lines doc (needs_any configs)
  ↔ ∃ config e, Some config ∈ configs ∧ e ∈ endpoints config ∧
      "**kwargs: Any"
      ∈ param_strs (get_endpoint_params e (pattern_templates config)).1
                   (get_endpoint_params e (pattern_templates config)).2 inc.
Proof.
  rewrite any_in_header, needs_any_flag. simpl.
  split; intros (c & e & Hc & He & Hf); exists c, e;
    (split; [done|]); (split; [done|]).
  - by apply kwargs_in_param_strs.
  - by apply kwargs_in_param_strs in Hf.
Qed.

(** ** The names of the stubs *)

(** X8.  When the method names of a config are pairwise distinct and none
    of them is another one followed by [_async], the stubs of the class
    have pairwise distinct names. *)
Theorem stub_names_distinct eps :
  NoDup (method_name <$> eps) →
  (∀ a b, a ∈ method_name <$> eps → b ∈ method_name <$> eps →
          a ≠ b ++ "_async") →
  NoDup (stub_names eps).
Proof.
  induction eps as [|e eps IH]; intros Hnd Hasync; [constructor|].
  rewrite fmap_cons in Hnd, Hasync. apply NoDup_cons in Hnd as [Hnew Hnd].
  assert (Hin : ∀ x, x ∈ stub_names eps →
            ∃ m, m ∈ method_name <$> eps ∧ (x = m ∨ x = m ++ "_async")).
  { clear. induction eps as [|e' eps IH]; intros x Hx.
    - by apply elem_of_nil in Hx.
    - unfold stub_names in Hx. simpl in Hx. rewrite fmap_cons.
      apply elem_of_cons in Hx as [->|Hx];
        [exists (method_name e'); split; [left|by left]|].
      apply elem_of_cons in Hx as [->|Hx];
        [exists (method_name e'); split; [left|by right]|].
      destruct (IH x Hx) as (m & Hm & Hor). exists m. split; [by right|done]. }
  unfold stub_names. simpl. apply NoDup_cons. split; [|apply NoDup_cons; split].
  - intros Hx. apply elem_of_cons in Hx as [Hx|Hx].
    + by apply (str_app_nonempty_neq (method_name e) "_async") in Hx.
    + destruct (Hin _ Hx) as (m & Hm & [Heq|Heq]).
      * apply Hnew. by rewrite Heq.
      * eapply (Hasync (method_name e) m); [left|by right|done].
  - intros Hx. destruct (Hin _ Hx) as (m & Hm & [Heq|Heq]).
    + eapply (Hasync m (method_name e)); [by right|left|done].
    + apply str_app_inv_tail in Heq. congruence.
  - apply IH; [done|]. intros a b Ha Hb. apply Hasync; by right.
Qed.

Lemma stub_names_distinct_witness :
  NoDup (stub_names [Fixtures.get_achievement; Fixtures.search_decor_named]).
Proof.
  apply stub_names_distinct.
  - apply (bool_decide_unpack _). vm_compute. exact I.
  - intros a b Ha Hb.
    apply elem_of_cons in Ha as [->|Ha];
      [|apply list_elem_of_singleton in Ha as ->];
      (apply elem_of_cons in Hb as [->|Hb];
        [|apply list_elem_of_singleton in Hb as ->]); discriminate.
Defined.

(** A method name that is another one followed by [_async] does collide. *)
Example async_suffix_collides e1 e2 :
  method_name e1 = "get_item" → method_name e2 = "get_item_async" →
  ¬ NoDup (stub_names [e1; e2]).
Proof.
  intros H1 H2 Hnd. unfold stub_names in Hnd. simpl in Hnd.
  rewrite H1, H2 in Hnd. apply NoDup_cons in Hnd as [_ Hnd].
  apply NoDup_cons in Hnd as [Hnotin _]. apply Hnotin. left.
Qed.

(** ** The substituted identifier in the signature *)

(** X11.  When the descriptor renames the placeholder to a name that ends
    in [_id], the signature of its stubs declares that name as an [int]:
    the entry ["<name>: int"] is in the parameter list. *)
Theorem substituted_id_is_int e patterns s inc :
  param_name e = Some s → endswith "_id" s = true →
  "id" ∈ base_params e patterns →
  s ++ ": int"
  ∈ param_strs (get_endpoint_params e patterns).1
               (get_endpoint_params e patterns).2 inc.
Proof.
  intros Hp Hs Hin.
  assert (Hne : s ≠ "") by (by intros ->).
  destruct (StubsFacts.substitute_id_hit e s _ Hp Hne Hin)
    as (idx & Hidx & Hsub).
  destruct (StubsFacts.index_first _ _ _ Hidx) as [Hat _].
  assert (Hres : s ∈ (get_endpoint_params e patterns).1).
  { simpl. rewrite Hsub. apply list_elem_of_lookup. exists idx.
    apply list_lookup_insert_eq. by eapply lookup_lt_Some. }
  assert (Hrender : render_param s = s ++ ": int").
  { unfold render_param, get_param_type.
    destruct (decide (s = "access_token")) as [->|]; [done|].
    destruct (decide (s = "region")) as [->|]; [done|].
    destruct (decide (s = "locale")) as [->|]; [done|].
    by rewrite Hs, orb_true_r. }
  rewrite <- Hrender. unfold param_strs.
  assert (Hmap : render_param s
                 ∈ app ["self"; "*"]
                       (map render_param (get_endpoint_params e patterns).1)).
  { right. right. apply list_elem_of_In, in_map, list_elem_of_In, Hres. }
  destruct inc, (get_endpoint_params e patterns).2;
    [apply elem_of_app; left; apply elem_of_app; left
    |apply elem_of_app; left|apply elem_of_app; left|];
    exact Hmap.
Qed.

Lemma substituted_id_is_int_witness :
  "achievement_id: int"
  ∈ param_strs (get_endpoint_params Fixtures.get_achievement
                  Fixtures.wow_patterns).1
               (get_endpoint_params Fixtures.get_achievement
                  Fixtures.wow_patterns).2 true.
Proof.
  apply (substituted_id_is_int Fixtures.get_achievement Fixtures.wow_patterns
           "achievement_id" true).
  - reflexivity.
  - vm_compute. reflexivity.
  - apply (bool_decide_unpack _). vm_compute. exact I.
Defined.

End GeneratorFacts.

(** * Further properties of the validation messages *)

Module MessageFacts.
Import Py Validation.

Lemma str_app_nil_r (s : string) : s ++ "" = s.
Proof.
  induction s as [|a s IH]; [done|].
  rewrite GeneratorFacts.str_app_cons. by f_equal.
Qed.

(** A joined list starts with its first element. *)
Lemma join_cons_prefix sep p ps : ∃ rest, join sep (p :: ps) = p ++ rest.
Proof.
  destruct ps as [|q ps]; simpl.
  - exists "". by rewrite str_app_nil_r.
  - by eexists.
Qed.

Lemma validation_str_prefix e :
  ∃ rest, validation_str e = ("ValidationError: " ++ message e) ++ rest.
Proof.
  unfold validation_str.
  destruct (truthy_opt_str (field e)), (invalid_value e);
    apply join_cons_prefix.
Qed.

Lemma with_list_prefix label l msg : ∃ rest, with_list label l msg = msg ++ rest.
Proof.
  unfold with_list. destruct (truthy_opt_list l).
  - by eexists.
  - exists "". by rewrite str_app_nil_r.
Qed.

Lemma subclass_prefix label l e :
  startswith ("ValidationError: " ++ message e)
             (with_list label l (validation_str e)) = true.
Proof.
  destruct (with_list_prefix label l (validation_str e)) as [r1 ->].
  destruct (validation_str_prefix e) as [r2 ->].
  rewrite GeneratorFacts.str_app_assoc.
  apply GeneratorFacts.startswith_app.
Qed.

(** X9.  Whatever the fields hold, the message of each of the three
    subclasses starts with ["ValidationError: "] followed by the message
    of the error: the subclasses only append to the message of the base
    class, and the class name shown is always that of the base. *)
Theorem messages_start_with_base :
  (∀ e, startswith ("ValidationError: " ++ message (mp_base e))
                   (missing_parameter_str e) = true) ∧
  (∀ e, startswith ("ValidationError: " ++ message (ir_base e))
                   (invalid_region_str e) = true) ∧
  (∀ e, startswith ("ValidationError: " ++ message (il_base e))
                   (invalid_locale_str e) = true).
Proof. split; [|split]; intros e; apply subclass_prefix. Qed.

Lemma with_list_same label l msg :
  with_list label l msg = msg ↔ truthy_opt_list l = false.
Proof.
  unfold with_list. destruct (truthy_opt_list l); [|done].
  split; [|done]. intros H. symmetry in H.
  by apply GeneratorFacts.str_app_nonempty_neq in H.
Qed.

(** X10.  A subclass appends its list to the message of the base class
    exactly when the list is present and not empty: with a missing or an
    empty list the message is that of the base class, without a dangling
    label. *)
Theorem list_suffix_iff_nonempty :
  (∀ e, missing_parameter_str e = validation_str (mp_base e)
        ↔ truthy_opt_list (required_params e) = false) ∧
  (∀ e, invalid_region_str e = validation_str (ir_base e)
        ↔ truthy_opt_list (valid_regions e) = false) ∧
  (∀ e, invalid_locale_str e = validation_str (il_base e)
        ↔ truthy_opt_list (valid_locales e) = false).
Proof. split; [|split]; intros e; apply with_list_same. Qed.

End MessageFacts.
